(** * The traffic store of the FlowSync front-end

    A shallow embedding of [src/stores/trafficStore.js] (the zustand store
    [useTrafficStore], its [updateState] and [toggleSimulation] actions and
    the module-level [ws.onmessage] handler), of the [useWebSocket] hook of
    [src/utils/websocket.js], and of the siren controls of
    [src/utils/audio.js]. *)

From stdpp Require Import gmap strings list fin_maps.

Open Scope Z_scope.
Open Scope string_scope.
Open Scope list_scope.

(** ** JavaScript values

    The values a field of a decoded message can hold.  [JSON.parse] yields
    no [NaN], so strict equality [===] is an equivalence on them: primitives
    are compared by value, objects and arrays by reference.  A nested object
    or array is represented by its reference [VRef]; numbers are the finite
    numbers of the payload, compared by value, written as integers here.
    [VUndefined] is what reading an absent property gives. *)

Inductive value :=
  | VUndefined
  | VNull
  | VBool (b : bool)
  | VNum (n : Z)
  | VStr (s : string)
  | VRef (r : nat).

#[global] Instance value_eq_dec : EqDecision value.
Proof. solve_decision. Defined.

(** [a === b] and [a !== b]. *)
Definition strict_eq (a b : value) : bool := bool_decide (a = b).
Definition strict_ne (a b : value) : bool := negb (strict_eq a b).

(** The condition of [c ? x : y]: [undefined], [null], [false], [0] and the
    empty string are falsy, everything else (objects included) is truthy. *)
Definition truthy (v : value) : bool :=
  match v with
  | VUndefined | VNull => false
  | VBool b => b
  | VNum n => negb (Z.eqb n 0)
  | VStr s => negb (bool_decide (s = ""))
  | VRef _ => true
  end.

(** A plain object: a finite map from property names to values.  Reading
    [o.k] gives [undefined] when [k] is absent. *)
Definition get (o : gmap string value) (k : string) : value :=
  default VUndefined (o !! k).

(** What [JSON.parse] can return at top level.  Reading a property of
    [null] throws a [TypeError]; a boolean, number, string or array has none
    of the properties read by the store, so each read gives [undefined]. *)
Inductive data :=
  | DNull
  | DOther
  | DObject (o : gmap string value).

Inductive exn := TypeError | SyntaxError.

(** ** The store *)

(** The object literal built by the ['vehicle_update'] case:
    [{ id, position: [lat, lng], speed, type }]. *)
Record vehicle := Vehicle {
  veh_id : value;
  veh_position : value * value;
  veh_speed : value;
  veh_type : string
}.

#[global] Instance vehicle_eq_dec : EqDecision vehicle.
Proof. solve_decision. Defined.

(** The state held by [useTrafficStore].  The two [Howl] objects
    [sirenSound] and [trafficSound] are created once and never reassigned;
    the calls made on them are recorded as effects. *)
Record store := Store {
  vehicles : list vehicle;
  trafficLights : list (gmap string value);
  emergencies : list (gmap string value);
  congestion : Z;
  avgSpeed : Z;
  isSimulationActive : bool
}.

Definition initial : store :=
  {| vehicles := []; trafficLights := []; emergencies := [];
     congestion := 0; avgSpeed := 45; isSimulationActive := false |}.

Inductive effect :=
  | SirenPlay                    (* get().sirenSound.play() *)
  | TrafficPlay                  (* get().trafficSound.play() *)
  | TrafficStop                  (* get().trafficSound.stop() *)
  | ConsoleError (msg : string). (* console.error(msg, error) *)

#[global] Instance effect_eq_dec : EqDecision effect.
Proof. solve_decision. Defined.

(** How a call completes: normally, with the new state and the effects it
    performed, or by throwing. *)
Inductive completion :=
  | Returns (s : store) (fx : list effect)
  | Throws (e : exn).

(** zustand's [set(partial)] merges the given fields into the state. *)
Definition set_vehicles (vs : list vehicle) (s : store) : store :=
  {| vehicles := vs; trafficLights := trafficLights s;
     emergencies := emergencies s; congestion := congestion s;
     avgSpeed := avgSpeed s; isSimulationActive := isSimulationActive s |}.

Definition set_trafficLights (ls : list (gmap string value)) (s : store) : store :=
  {| vehicles := vehicles s; trafficLights := ls;
     emergencies := emergencies s; congestion := congestion s;
     avgSpeed := avgSpeed s; isSimulationActive := isSimulationActive s |}.

Definition set_emergencies (es : list (gmap string value)) (s : store) : store :=
  {| vehicles := vehicles s; trafficLights := trafficLights s;
     emergencies := es; congestion := congestion s;
     avgSpeed := avgSpeed s; isSimulationActive := isSimulationActive s |}.

Definition set_isSimulationActive (b : bool) (s : store) : store :=
  {| vehicles := vehicles s; trafficLights := trafficLights s;
     emergencies := emergencies s; congestion := congestion s;
     avgSpeed := avgSpeed s; isSimulationActive := b |}.

(** The entry written by ['vehicle_update']. *)
Definition vehicle_of (o : gmap string value) : vehicle :=
  {| veh_id := get o "id";
     veh_position := (get o "lat", get o "lng");
     veh_speed := get o "speed";
     veh_type := if truthy (get o "isEmergency") then "emergency" else "normal" |}.

(** [light.id === data.id ? { ...light, state: data.state } : light] *)
Definition relight (o light : gmap string value) : gmap string value :=
  if strict_eq (get light "id") (get o "id")
  then <["state" := get o "state"]> light
  else light.

(** [updateState(data)]: the [switch] on [data.type]. *)
Definition updateState (d : data) (s : store) : completion :=
  match d with
  | DNull => Throws TypeError
  | DOther => Returns s []
  | DObject o =>
      if strict_eq (get o "type") (VStr "vehicle_update") then
        Returns
          (set_vehicles
             (filter (λ v, strict_ne (veh_id v) (get o "id") = true) (vehicles s)
                ++ [vehicle_of o]) s)
          []
      else if strict_eq (get o "type") (VStr "traffic_light") then
        Returns (set_trafficLights (relight o <$> trafficLights s) s) []
      else if strict_eq (get o "type") (VStr "emergency_start") then
        Returns (set_emergencies (emergencies s ++ [o]) s) [SirenPlay]
      else Returns s []
  end.

(** [toggleSimulation()] *)
Definition toggleSimulation (s : store) : store * list effect :=
  let isActive := negb (isSimulationActive s) in
  (set_isSimulationActive isActive s,
   [if isActive then TrafficPlay else TrafficStop]).

(** ** The message handlers *)

(** The body of the [try] block once [JSON.parse] has returned [d]: an
    exception of [updateState] is caught and logged with [msg]. *)
Definition dispatch (msg : string) (d : data) (s : store) : store * list effect :=
  match updateState d s with
  | Returns s' fx => (s', fx)
  | Throws _ => (s, [ConsoleError msg])
  end.

(** Messages handled one after the other, the effects in order. *)
Fixpoint dispatch_all (msg : string) (ds : list data) (s : store)
  : store * list effect :=
  match ds with
  | [] => (s, [])
  | d :: ds' =>
      let '(s1, fx1) := dispatch msg d s in
      let '(s2, fx2) := dispatch_all msg ds' s1 in
      (s2, fx1 ++ fx2)
  end.

Section Handlers.
(** [JSON.parse] is the platform's: [None] stands for its [SyntaxError].
    It is read here as a function of the text alone, which it is up to the
    objects and arrays it allocates: each call makes fresh ones, so two
    decodings of one text agree on their primitive fields only.  What is
    proved of a text decoded twice is proved for payloads without nested
    objects or arrays. *)
Variable JSON_parse : string → option data.

Definition on_message (msg raw : string) (s : store) : store * list effect :=
  match JSON_parse raw with
  | None => (s, [ConsoleError msg])
  | Some d => dispatch msg d s
  end.

(** [ws.onmessage] of [trafficStore.js]. *)
Definition ws_onmessage : string → store → store * list effect :=
  on_message "Invalid message format:".

(** [ws.onmessage] installed by [useWebSocket]. *)
Definition useWebSocket_onmessage : string → store → store * list effect :=
  on_message "WebSocket message error:".

(** A stream of raw payloads delivered to a handler. *)
Fixpoint deliver (h : string → store → store * list effect)
    (raws : list string) (s : store) : store * list effect :=
  match raws with
  | [] => (s, [])
  | raw :: raws' =>
      let '(s1, fx1) := h raw s in
      let '(s2, fx2) := deliver h raws' s1 in
      (s2, fx1 ++ fx2)
  end.
End Handlers.

(** The states the store can be in: the initial one, and those its two
    actions lead to. *)
Inductive reachable : store → Prop :=
  | reachable_initial : reachable initial
  | reachable_updateState d s s' fx :
      reachable s → updateState d s = Returns s' fx → reachable s'
  | reachable_toggleSimulation s :
      reachable s → reachable (toggleSimulation s).1.

(** ** Messages of the scenarios *)

Definition object_of (fields : list (string * value)) : gmap string value :=
  list_to_map fields.

Definition upsert (id lat lng speed idx : Z) : gmap string value :=
  object_of [("type", VStr "vehicle_update"); ("id", VNum id);
             ("lat", VNum lat); ("lng", VNum lng); ("speed", VNum speed);
             ("idx", VNum idx)].

Definition emergency_start (id : string) (idx : Z) : gmap string value :=
  object_of [("type", VStr "emergency_start"); ("id", VStr id);
             ("idx", VNum idx)].

Definition emergency_end (id : string) (idx : Z) : gmap string value :=
  object_of [("type", VStr "emergency_end"); ("id", VStr id);
             ("idx", VNum idx)].

Definition light_phase (id : Z) (phase : string) : gmap string value :=
  object_of [("type", VStr "traffic_light"); ("id", VNum id);
             ("state", VStr phase)].

(** The scenario of the merge rule: two upserts for vehicle 7, then a stale
    one carrying a lower arrival index. *)
Definition stale_scenario : list (gmap string value) :=
  [upsert 7 0 0 10 1; upsert 7 1 1 12 3; upsert 7 9 9 1 2].

(** The entries stored under identifier [k]. *)
Definition stored_vehicles (k : value) (s : store) : list vehicle :=
  filter (λ v, veh_id v = k) (vehicles s).

Definition stored_emergencies (k : value) (s : store) : list (gmap string value) :=
  filter (λ e, get e "id" = k) (emergencies s).

(** The three tags [updateState] has a case for. *)
Definition recognised (t : value) : Prop :=
  t = VStr "vehicle_update" ∨ t = VStr "traffic_light"
  ∨ t = VStr "emergency_start".

#[global] Instance recognised_dec t : Decision (recognised t).
Proof. unfold recognised. apply _. Defined.

(** The declared type tag [data.type], when reading it does not throw. *)
Definition type_tag (d : data) : option value :=
  match d with
  | DNull => None
  | DOther => Some VUndefined
  | DObject o => Some (get o "type")
  end.

(** Whether [d] is a vehicle upsert for identifier [k]. *)
Definition is_upsert_for (k : value) (d : data) : bool :=
  match d with
  | DObject o =>
      strict_eq (get o "type") (VStr "vehicle_update") && strict_eq (get o "id") k
  | _ => false
  end.

(** *** The arrival-index reading of the merge rule

    In the words of the specification: the event of a sequence with the
    highest arrival index (the earlier one on a tie), and the property that
    the store holds exactly that event for its identifier.  The events of
    the scenarios carry their arrival index in the field [idx], which the
    store never reads. *)
Definition arrival_index (o : gmap string value) : Z :=
  match get o "idx" with VNum n => n | _ => 0 end.

Fixpoint highest_index (evs : list (gmap string value))
  : option (gmap string value) :=
  match evs with
  | [] => None
  | e :: rest =>
      match highest_index rest with
      | Some m => if Z.ltb (arrival_index e) (arrival_index m) then Some m else Some e
      | None => Some e
      end
  end.

Definition reflects_highest_index
    (evs : list (gmap string value)) (s : store) : Prop :=
  ∀ m, highest_index evs = Some m →
       stored_vehicles (get m "id") s = [vehicle_of m].

(** No two entries of a collection share an identifier. *)
Definition unique_ids (s : store) : Prop :=
  NoDup (veh_id <$> vehicles s)
  ∧ NoDup ((λ l, get l "id") <$> trafficLights s)
  ∧ NoDup ((λ e, get e "id") <$> emergencies s).

(** ** The siren controls of [audio.js]

    [sounds.siren] is a looping [Howl].  What [sounds.siren.playing()]
    reports is the library's business (it stays false until the sound has
    loaded and started), so the report is an argument here and only the
    calls made on the [Howl] are modelled. *)
Module audio.
Inductive call := Play (sprite : string) | Stop.

(** [playSiren]: [if (!sounds.siren.playing()) sounds.siren.play('loop')],
    given what [playing()] reports. *)
Definition playSiren (siren_playing : bool) : list call :=
  if negb siren_playing then [Play "loop"] else [].

(** [stopSiren]: [sounds.siren.stop()] *)
Definition stopSiren : list call := [Stop].
End audio.

(** ** Payload texts of the examples

    A decoder that knows a few payload texts; every other text is
    malformed. *)
Definition quoted (s : string) : string :=
  String (Ascii.ascii_of_nat 34) (s +:+ String (Ascii.ascii_of_nat 34) "").

Definition ping_text : string :=
  "{" +:+ quoted "type" +:+ ":" +:+ quoted "ping" +:+ "}".

Definition start_text : string :=
  "{" +:+ quoted "type" +:+ ":" +:+ quoted "emergency_start" +:+ "}".

Definition parse_sample (raw : string) : option data :=
  if decide (raw = "null") then Some DNull
  else if decide (raw = "42") then Some DOther
  else if decide (raw = "{}") then Some (DObject ∅)
  else if decide (raw = ping_text) then
    Some (DObject (object_of [("type", VStr "ping")]))
  else if decide (raw = start_text) then
    Some (DObject (object_of [("type", VStr "emergency_start")]))
  else None.

(** A second decoder, which knows the text of one vehicle upsert. *)
Definition vehicle_text : string :=
  "{" +:+ quoted "type" +:+ ":" +:+ quoted "vehicle_update" +:+ ","
      +:+ quoted "id" +:+ ":7," +:+ quoted "speed" +:+ ":10}".

Definition vehicle_message : gmap string value :=
  object_of [("type", VStr "vehicle_update"); ("id", VNum 7);
             ("speed", VNum 10)].

Definition parse_feed (raw : string) : option data :=
  if decide (raw = vehicle_text) then Some (DObject vehicle_message)
  else if decide (raw = "null") then Some DNull
  else None.

(** ** Runs of the store

    What happens to the store over time: a decoded message handed to
    [updateState] by a handler, or a click on the control panel's
    simulation button, which calls [toggleSimulation]. *)
Inductive action :=
  | Message (d : data)
  | ToggleSimulation.

Definition step (msg : string) (a : action) (s : store) : store * list effect :=
  match a with
  | Message d => dispatch msg d s
  | ToggleSimulation => toggleSimulation s
  end.

Fixpoint run (msg : string) (acts : list action) (s : store)
  : store * list effect :=
  match acts with
  | [] => (s, [])
  | a :: acts' =>
      let '(s1, fx1) := step msg a s in
      let '(s2, fx2) := run msg acts' s1 in
      (s2, fx1 ++ fx2)
  end.

(** Whether [trafficSound] is playing after the calls of a log, given
    whether it was before: its last [play] or [stop] decides. *)
Fixpoint traffic_playing (playing : bool) (fx : list effect) : bool :=
  match fx with
  | [] => playing
  | TrafficPlay :: rest => traffic_playing true rest
  | TrafficStop :: rest => traffic_playing false rest
  | _ :: rest => traffic_playing playing rest
  end.

(** The object of a message that the ['emergency_start'] case stores. *)
Definition started (d : data) : option (gmap string value) :=
  match d with
  | DObject o =>
      if strict_eq (get o "type") (VStr "emergency_start") then Some o else None
  | _ => None
  end.

(** Whether a payload ends in the [catch] block of a handler: it is
    malformed, or it decodes to [null]. *)
Definition rejected (JSON_parse : string → option data) (raw : string) : bool :=
  match JSON_parse raw with
  | None | Some DNull => true
  | Some _ => false
  end.

(** A diagnostic written by a handler's [catch] block. *)
Definition is_console_error (e : effect) : bool :=
  match e with ConsoleError _ => true | _ => false end.

(** In the words of the specification, a payload is classified as a decode
    error; the one trace the handlers leave of an error is the diagnostic of
    their [catch] block, so a payload counts as classified when the effects
    of handling it hold one. *)
Definition classified_as_decode_error (fx : list effect) : Prop :=
  Exists (λ e, is_console_error e = true) fx.

(** A value that is compared by value: anything but an object or array. *)
Definition primitive (v : value) : bool :=
  match v with VRef _ => false | _ => true end.

(** Decoded data without nested objects or arrays: decoding its text again
    gives the same fields. *)
Definition flat (d : data) : bool :=
  match d with
  | DObject o => bool_decide (map_Forall (λ _ v, primitive v = true) o)
  | _ => true
  end.

(** ** The components that read the store *)

Module TrafficLight.
(** The [colors] table of the component. *)
Definition colors : gmap string string :=
  list_to_map [("red", "#ff0000"); ("yellow", "#ffff00"); ("green", "#00ff00")].

(** One lamp: its [color] and [emissive] properties,
    [color === state ? colors[color] : '#444444'] and
    [color === state ? colors[color] : '#000000']. *)
Definition lamp (state : value) (color : string) : string * string :=
  (if strict_eq (VStr color) state then colors !!! color else "#444444",
   if strict_eq (VStr color) state then colors !!! color else "#000000").

(** [['red', 'yellow', 'green'].map(...)] *)
Definition lamps (state : value) : list (string * string) :=
  lamp state <$> ["red"; "yellow"; "green"].

(** A lamp that is not drawn in the dark grey of an unlit one. *)
Definition lit (l : string * string) : bool := negb (bool_decide (l.1 = "#444444")).
End TrafficLight.

(** ** The earlier store of [websocket.js]

    The first version of the store: [onMessage] parses the text itself,
    without a [try], keeps the message object as the vehicle entry, and
    starts the siren through [playSirenSound], which the file neither
    defines nor imports: whether that call returns or throws is a
    parameter. *)
Module websocket_js.
Record store := Store {
  vehicles : list (gmap string value);
  trafficLights : list (gmap string value);
  emergencies : list (gmap string value);
  congestion : Z;
  avgSpeed : Z
}.

Definition initial : store :=
  {| vehicles := []; trafficLights := []; emergencies := [];
     congestion := 0; avgSpeed := 45 |}.

Inductive effect := PlaySirenSound.

Inductive exn := TypeError | SyntaxError | Raised.

Inductive completion :=
  | Returns (s : store) (fx : list effect)
  | Throws (e : exn) (fx : list effect).

Section OnMessage.
Variable JSON_parse : string → option data.
(** [true] when the call [playSirenSound()] throws. *)
Variable playSirenSound_throws : bool.

(** [onMessage(msg)], given the text [msg.data]. *)
Definition onMessage (msg_data : string) (s : store) : completion :=
  match JSON_parse msg_data with
  | None => Throws SyntaxError []
  | Some DNull => Throws TypeError []
  | Some DOther => Returns s []
  | Some (DObject o) =>
      if strict_eq (get o "type") (VStr "vehicle_update") then
        Returns
          {| vehicles :=
               filter (λ v, strict_ne (get v "id") (get o "id") = true)
                      (vehicles s) ++ [o];
             trafficLights := trafficLights s; emergencies := emergencies s;
             congestion := congestion s; avgSpeed := avgSpeed s |} []
      else if strict_eq (get o "type") (VStr "traffic_light") then
        Returns
          {| vehicles := vehicles s;
             trafficLights := relight o <$> trafficLights s;
             emergencies := emergencies s;
             congestion := congestion s; avgSpeed := avgSpeed s |} []
      else if strict_eq (get o "type") (VStr "emergency") then
        if playSirenSound_throws then Throws Raised []
        else
          Returns
            {| vehicles := vehicles s; trafficLights := trafficLights s;
               emergencies := emergencies s ++ [o];
               congestion := congestion s; avgSpeed := avgSpeed s |}
            [PlaySirenSound]
      else Returns s []
  end.
End OnMessage.
End websocket_js.

(** The later store holds, for each vehicle, the entry built from the
    message the earlier store keeps whole; lights, congestion and average
    speed are the same. *)
Definition same_traffic (old : websocket_js.store) (s : store) : Prop :=
  vehicles s = vehicle_of <$> websocket_js.vehicles old
  ∧ trafficLights s = websocket_js.trafficLights old
  ∧ congestion s = websocket_js.congestion old
  ∧ avgSpeed s = websocket_js.avgSpeed old.

(** * Properties *)

(** ** Strict equality and the cases of [updateState] *)

Lemma strict_eq_true a b : strict_eq a b = true ↔ a = b.
Proof. unfold strict_eq. apply bool_decide_eq_true. Qed.

Lemma strict_eq_false a b : strict_eq a b = false ↔ a ≠ b.
Proof. unfold strict_eq. apply bool_decide_eq_false. Qed.

Lemma strict_eq_refl a : strict_eq a a = true.
Proof. by apply strict_eq_true. Qed.

Lemma strict_ne_true a b : strict_ne a b = true ↔ a ≠ b.
Proof.
  unfold strict_ne. rewrite negb_true_iff. apply strict_eq_false.
Qed.

Lemma updateState_vehicle_update o s :
  get o "type" = VStr "vehicle_update" →
  updateState (DObject o) s =
    Returns
      (set_vehicles
         (filter (λ v, strict_ne (veh_id v) (get o "id") = true) (vehicles s)
            ++ [vehicle_of o]) s) [].
Proof. intros Ht. simpl. by rewrite Ht. Qed.

Lemma updateState_traffic_light o s :
  get o "type" = VStr "traffic_light" →
  updateState (DObject o) s =
    Returns (set_trafficLights (relight o <$> trafficLights s) s) [].
Proof. intros Ht. simpl. by rewrite Ht. Qed.

Lemma updateState_emergency_start o s :
  get o "type" = VStr "emergency_start" →
  updateState (DObject o) s =
    Returns (set_emergencies (emergencies s ++ [o]) s) [SirenPlay].
Proof. intros Ht. simpl. by rewrite Ht. Qed.

Lemma updateState_unrecognised o s :
  ¬ recognised (get o "type") → updateState (DObject o) s = Returns s [].
Proof.
  intros Hn. simpl.
  destruct (strict_eq _ (VStr "vehicle_update")) eqn:E1.
  { apply strict_eq_true in E1. destruct Hn. by left. }
  destruct (strict_eq _ (VStr "traffic_light")) eqn:E2.
  { apply strict_eq_true in E2. destruct Hn. right. by left. }
  destruct (strict_eq _ (VStr "emergency_start")) eqn:E3.
  { apply strict_eq_true in E3. destruct Hn. right. by right. }
  done.
Qed.

(** The tag of an object decides which case runs. *)
Lemma tag_cases (t : value) :
  t = VStr "vehicle_update" ∨ t = VStr "traffic_light"
  ∨ t = VStr "emergency_start" ∨ ¬ recognised t.
Proof.
  destruct (decide (recognised t)) as [[?|[?|?]]|?]; auto.
Qed.

Ltac by_tag o :=
  destruct (tag_cases (get o "type")) as [Htag|[Htag|[Htag|Htag]]];
  [ rewrite (updateState_vehicle_update _ _ Htag)
  | rewrite (updateState_traffic_light _ _ Htag)
  | rewrite (updateState_emergency_start _ _ Htag)
  | rewrite (updateState_unrecognised _ _ Htag) ].

Lemma store_eta s :
  {| vehicles := vehicles s; trafficLights := trafficLights s;
     emergencies := emergencies s; congestion := congestion s;
     avgSpeed := avgSpeed s; isSimulationActive := isSimulationActive s |} = s.
Proof. by destruct s. Qed.

(** [updateState] throws on [null] only. *)
Lemma updateState_returns d s :
  d ≠ DNull → ∃ s' fx, updateState d s = Returns s' fx.
Proof.
  destruct d as [| |o]; [done| by eexists _, _ |]. intros _.
  by_tag o; by eexists _, _.
Qed.

(** The only effect of [updateState] is starting the siren. *)
Lemma updateState_effects d s s' fx :
  updateState d s = Returns s' fx → fx = [] ∨ fx = [SirenPlay].
Proof.
  destruct d as [| |o]; [done | intros [= <- <-]; by left |].
  by_tag o; intros [= <- <-]; auto.
Qed.

(** ** Sequences of messages *)

Lemma dispatch_all_app msg ds1 ds2 s :
  dispatch_all msg (ds1 ++ ds2) s =
    let '(s1, fx1) := dispatch_all msg ds1 s in
    let '(s2, fx2) := dispatch_all msg ds2 s1 in
    (s2, fx1 ++ fx2).
Proof.
  revert s. induction ds1 as [|d ds1 IH]; intros s; simpl.
  - by destruct (dispatch_all msg ds2 s).
  - destruct (dispatch msg d s) as [s1 fx1]. rewrite IH.
    destruct (dispatch_all msg ds1 s1) as [s2 fx2].
    destruct (dispatch_all msg ds2 s2) as [s3 fx3].
    by rewrite app_assoc.
Qed.

Lemma deliver_app h raws1 raws2 s :
  deliver h (raws1 ++ raws2) s =
    let '(s1, fx1) := deliver h raws1 s in
    let '(s2, fx2) := deliver h raws2 s1 in
    (s2, fx1 ++ fx2).
Proof.
  revert s. induction raws1 as [|r raws1 IH]; intros s; simpl.
  - by destruct (deliver h raws2 s).
  - destruct (h r s) as [s1 fx1]. rewrite IH.
    destruct (deliver h raws1 s1) as [s2 fx2].
    destruct (deliver h raws2 s2) as [s3 fx3].
    by rewrite app_assoc.
Qed.

(** ** Vehicle upserts: the last write wins *)

Lemma stored_after_filter k (vs : list vehicle) :
  filter (λ v, veh_id v = k)
         (filter (λ v, strict_ne (veh_id v) k = true) vs) = [].
Proof.
  induction vs as [|v vs IH]; [done|].
  destruct (decide (veh_id v = k)) as [E|N].
  - rewrite (filter_cons_False _ v); [done|].
    rewrite strict_ne_true. naive_solver.
  - rewrite (filter_cons_True _ v); [|by apply strict_ne_true].
    by rewrite filter_cons_False.
Qed.

Lemma stored_other_filter k k' (vs : list vehicle) :
  k ≠ k' →
  filter (λ v, veh_id v = k)
         (filter (λ v, strict_ne (veh_id v) k' = true) vs)
  = filter (λ v, veh_id v = k) vs.
Proof.
  intros Hne. induction vs as [|v vs IH]; [done|].
  destruct (decide (veh_id v = k')) as [E|N].
  - rewrite (filter_cons_False _ v); [|rewrite strict_ne_true; naive_solver].
    rewrite (filter_cons_False _ v); [done|congruence].
  - rewrite (filter_cons_True _ v); [|by apply strict_ne_true].
    destruct (decide (veh_id v = k)).
    + rewrite !(filter_cons_True (λ v, veh_id v = k)); [|done..].
      by rewrite IH.
    + rewrite !(filter_cons_False (λ v, veh_id v = k)); done.
Qed.

(** Right after an upsert, its entry is the one stored for its id. *)
Lemma stored_vehicles_upsert o s s' fx :
  get o "type" = VStr "vehicle_update" →
  updateState (DObject o) s = Returns s' fx →
  stored_vehicles (get o "id") s' = [vehicle_of o].
Proof.
  intros Ht. rewrite (updateState_vehicle_update _ _ Ht). intros [= <- <-].
  unfold stored_vehicles. simpl.
  rewrite filter_app, stored_after_filter. simpl.
  by rewrite filter_cons_True.
Qed.

(** A message that is not an upsert for [k] keeps what is stored for [k]. *)
Lemma stored_vehicles_dispatch_other msg k d s :
  is_upsert_for k d = false →
  stored_vehicles k (dispatch msg d s).1 = stored_vehicles k s.
Proof.
  unfold dispatch. destruct d as [| |o]; [done..|].
  intros Hno. by_tag o; simpl; try done.
  unfold stored_vehicles. simpl.
  simpl in Hno. rewrite Htag, strict_eq_refl in Hno. simpl in Hno.
  apply strict_eq_false in Hno.
  rewrite filter_app, stored_other_filter by done.
  rewrite filter_cons_False; [|done]. by rewrite app_nil_r.
Qed.

Lemma stored_vehicles_dispatch_all_other msg k ds s :
  Forall (λ d, is_upsert_for k d = false) ds →
  stored_vehicles k (dispatch_all msg ds s).1 = stored_vehicles k s.
Proof.
  intros Hall. revert s. induction Hall as [|d ds Hd _ IH]; intros s; [done|].
  simpl. pose proof (stored_vehicles_dispatch_other msg k d s Hd) as H1.
  destruct (dispatch msg d s) as [s1 fx1]. specialize (IH s1).
  destruct (dispatch_all msg ds s1) as [s2 fx2]. simpl in *. congruence.
Qed.

(** C1, as stated, fails: after the scenario the store does not hold the
    event with the highest arrival index (position (1,1), speed 12) for
    vehicle 7 but the stale one delivered last (position (9,9), speed 1). *)
Lemma stale_upsert_overwrites :
  highest_index stale_scenario = Some (upsert 7 1 1 12 3)
  ∧ stored_vehicles (VNum 7)
      (dispatch_all "Invalid message format:"
         (DObject <$> stale_scenario) initial).1
    = [Vehicle (VNum 7) (VNum 9, VNum 9) (VNum 1) "normal"]
  ∧ ¬ reflects_highest_index stale_scenario
        (dispatch_all "Invalid message format:"
           (DObject <$> stale_scenario) initial).1.
Proof.
  split; [reflexivity|]. split; [by vm_compute|].
  intros H. specialize (H (upsert 7 1 1 12 3) eq_refl).
  vm_compute in H. discriminate H.
Qed.

(** C1, amended: the last write wins.  Whatever was delivered before, once
    an upsert for identifier [k] has been applied and no later message is an
    upsert for [k], the entry stored for [k] is exactly the one built from
    that upsert; arrival indices play no part. *)
Theorem last_upsert_wins msg k before o after s :
  is_upsert_for k (DObject o) = true →
  Forall (λ d, is_upsert_for k d = false) after →
  stored_vehicles k (dispatch_all msg (before ++ DObject o :: after) s).1
  = [vehicle_of o].
Proof.
  intros Hup Hafter. simpl in Hup. apply andb_true_iff in Hup as [Ht Hk].
  apply strict_eq_true in Ht, Hk. subst k.
  rewrite dispatch_all_app. destruct (dispatch_all msg before s) as [s1 fx1].
  simpl. unfold dispatch at 1.
  destruct (updateState (DObject o) s1) as [s2 fx2|e] eqn:E.
  - pose proof (stored_vehicles_upsert o s1 s2 fx2 Ht E) as Hs.
    pose proof (stored_vehicles_dispatch_all_other msg _ after s2 Hafter) as Hr.
    destruct (dispatch_all msg after s2) as [s3 fx3]. simpl in *. congruence.
  - rewrite (updateState_vehicle_update _ _ Ht) in E. discriminate E.
Qed.

Lemma last_upsert_wins_witness :
  stored_vehicles (VNum 7)
    (dispatch_all "Invalid message format:"
       ([DObject (upsert 7 0 0 10 1); DObject (upsert 7 1 1 12 3)]
          ++ DObject (upsert 7 9 9 1 2)
          :: [DObject (upsert 8 5 5 30 4); DNull;
              DObject (emergency_start "inc-1" 5)]) initial).1
  = [vehicle_of (upsert 7 9 9 1 2)].
Proof.
  apply (last_upsert_wins "Invalid message format:" (VNum 7)
           [DObject (upsert 7 0 0 10 1); DObject (upsert 7 1 1 12 3)]
           (upsert 7 9 9 1 2)).
  - vm_compute. reflexivity.
  - repeat constructor.
Defined.

(** ** Reachable states *)

Lemma reachable_dispatch msg d s : reachable s → reachable (dispatch msg d s).1.
Proof.
  intros Hs. unfold dispatch.
  destruct (updateState d s) as [s' fx|e] eqn:E; simpl; [|done].
  by eapply reachable_updateState.
Qed.

Lemma reachable_dispatch_all msg ds s :
  reachable s → reachable (dispatch_all msg ds s).1.
Proof.
  revert s. induction ds as [|d ds IH]; intros s Hs; [done|]. simpl.
  pose proof (reachable_dispatch msg d s Hs) as H1.
  destruct (dispatch msg d s) as [s1 fx1]. specialize (IH s1 H1).
  by destruct (dispatch_all msg ds s1).
Qed.

(** No action adds a traffic light. *)
Lemma reachable_trafficLights_empty s : reachable s → trafficLights s = [].
Proof.
  induction 1 as [|d s s' fx _ IH Hu|s _ IH]; [done| |done].
  destruct d as [| |o]; [done | by injection Hu as <- _ |].
  revert Hu. by_tag o; intros [= <- _]; simpl; try done.
  by rewrite IH.
Qed.

Lemma NoDup_ids_filter (P : vehicle → Prop) `{!∀ v, Decision (P v)}
    (vs : list vehicle) :
  NoDup (veh_id <$> vs) → NoDup (veh_id <$> filter P vs).
Proof.
  induction vs as [|v vs IH]; [done|]. rewrite fmap_cons, NoDup_cons.
  intros [Hv Hvs]. destruct (decide (P v)).
  - rewrite filter_cons_True by done. rewrite fmap_cons, NoDup_cons.
    split; [|by apply IH]. intros Hin. apply Hv.
    apply list_elem_of_fmap in Hin as (w & -> & Hw).
    apply list_elem_of_fmap. exists w. split; [done|].
    by apply list_elem_of_filter in Hw as [_ ?].
  - rewrite filter_cons_False by done. by apply IH.
Qed.

(** [vehicles] never holds two entries with the same identifier: an upsert
    drops the entry it replaces. *)
Lemma updateState_vehicles_NoDup d s s' fx :
  updateState d s = Returns s' fx →
  NoDup (veh_id <$> vehicles s) → NoDup (veh_id <$> vehicles s').
Proof.
  destruct d as [| |o]; [done | by intros [= <- _] |].
  by_tag o; intros [= <- _]; simpl; try done.
  intros Hnd. rewrite fmap_app. apply NoDup_app. split; [by apply NoDup_ids_filter|].
  split; [|apply NoDup_singleton].
  intros k Hin Hk'. simpl in Hk'. apply list_elem_of_singleton in Hk' as ->.
  apply list_elem_of_fmap in Hin as (w & Hk & Hw).
  apply list_elem_of_filter in Hw as [Hne _].
  apply strict_ne_true in Hne. by apply Hne.
Qed.

Lemma reachable_vehicles_NoDup s : reachable s → NoDup (veh_id <$> vehicles s).
Proof.
  induction 1 as [|d s s' fx _ IH Hu|s _ IH]; [apply NoDup_nil_2| |done].
  by eapply updateState_vehicles_NoDup.
Qed.


(** ** Duplicate emergency starts *)

(** C2, on the code: ['emergency_start'] appends without dropping the entry
    it should replace, as ['vehicle_update'] does: two starts for "inc-1"
    lead to a reachable state with two entries for "inc-1". *)
Theorem emergency_start_duplicates :
  reachable
    (dispatch_all "Invalid message format:"
       [DObject (emergency_start "inc-1" 5);
        DObject (emergency_start "inc-1" 6)] initial).1
  ∧ stored_emergencies (VStr "inc-1")
      (dispatch_all "Invalid message format:"
         [DObject (emergency_start "inc-1" 5);
          DObject (emergency_start "inc-1" 6)] initial).1
    = [emergency_start "inc-1" 5; emergency_start "inc-1" 6]
  ∧ ¬ unique_ids
        (dispatch_all "Invalid message format:"
           [DObject (emergency_start "inc-1" 5);
            DObject (emergency_start "inc-1" 6)] initial).1.
Proof.
  split; [apply reachable_dispatch_all, reachable_initial|].
  split; [by vm_compute|].
  intros (_ & _ & Hnd). vm_compute in Hnd.
  apply NoDup_cons in Hnd as [Hnotin _]. apply Hnotin. left.
Qed.

(** The other two collections do keep identifiers unique. *)
Lemma reachable_vehicles_lights_unique s :
  reachable s →
  NoDup (veh_id <$> vehicles s)
  ∧ NoDup ((λ l, get l "id") <$> trafficLights s).
Proof.
  intros Hs. split; [by apply reachable_vehicles_NoDup|].
  rewrite (reachable_trafficLights_empty s Hs). apply NoDup_nil_2.
Qed.

(** ** End events *)




(** ** The siren *)

(** The guard of [audio.playSiren]: a call made while the siren reports
    that it is playing starts nothing; [audio.stopSiren] stops it. *)
Lemma playSiren_guarded :
  audio.playSiren false = [audio.Play "loop"]
  ∧ audio.playSiren true = []
  ∧ audio.stopSiren = [audio.Stop].
Proof. done. Qed.

(** C4, on the code: in the sequence start, start, end for "inc-1" the
    store's own siren is started twice, once per start and without the
    guard of [audio.playSiren], and is never stopped; the store ends with
    both starts in it. *)
Theorem duplicate_start_replays_siren :
  (dispatch_all "Invalid message format:"
     [DObject (emergency_start "inc-1" 5);
      DObject (emergency_start "inc-1" 6);
      DObject (emergency_end "inc-1" 7)] initial).2
  = [SirenPlay; SirenPlay]
  ∧ emergencies
      (dispatch_all "Invalid message format:"
         [DObject (emergency_start "inc-1" 5);
          DObject (emergency_start "inc-1" 6);
          DObject (emergency_end "inc-1" 7)] initial).1
    = [emergency_start "inc-1" 5; emergency_start "inc-1" 6].
Proof. split; by vm_compute. Qed.

(** Every start plays the siren, whatever is stored. *)
Lemma emergency_start_always_plays o s :
  get o "type" = VStr "emergency_start" →
  ∃ s', updateState (DObject o) s = Returns s' [SirenPlay].
Proof. intros Ht. rewrite (updateState_emergency_start _ _ Ht). by eexists. Qed.

(** ** Applying a message twice *)

Lemma filter_ne_idem k (vs : list vehicle) :
  filter (λ v, strict_ne (veh_id v) k = true)
         (filter (λ v, strict_ne (veh_id v) k = true) vs)
  = filter (λ v, strict_ne (veh_id v) k = true) vs.
Proof.
  induction vs as [|v vs IH]; [done|].
  destruct (decide (strict_ne (veh_id v) k = true)).
  - rewrite (filter_cons_True _ v) by done.
    rewrite (filter_cons_True _ v) by done. by rewrite IH.
  - by rewrite (filter_cons_False _ v).
Qed.

Lemma get_insert_state_id (light : gmap string value) x :
  get (<["state" := x]> light) "id" = get light "id".
Proof. unfold get. by rewrite lookup_insert_ne. Qed.

Lemma relight_idem o light : relight o (relight o light) = relight o light.
Proof.
  unfold relight. destruct (strict_eq (get light "id") (get o "id")) eqn:E.
  - rewrite get_insert_state_id, E. apply insert_insert_eq.
  - by rewrite E.
Qed.

(** Every message but an ['emergency_start'] can be applied a second time
    without changing the store again. *)
Lemma updateState_twice d s s1 fx1 :
  type_tag d ≠ Some (VStr "emergency_start") →
  updateState d s = Returns s1 fx1 →
  updateState d s1 = Returns s1 fx1.
Proof.
  destruct d as [| |o]; [done | by intros _ [= <- <-] |].
  intros Hne. by_tag o; intros [= <- <-].
  - rewrite (updateState_vehicle_update _ _ Htag). f_equal.
    unfold set_vehicles. simpl. f_equal.
    rewrite filter_app, filter_ne_idem.
    rewrite (filter_cons_False _ (vehicle_of o)); [by rewrite app_nil_r|].
    rewrite strict_ne_true. simpl. naive_solver.
  - rewrite (updateState_traffic_light _ _ Htag). f_equal.
    unfold set_trafficLights. simpl. f_equal.
    rewrite <- list_fmap_compose. apply list_fmap_ext.
    intros i l _. apply relight_idem.
  - simpl in Hne. congruence.
  - by rewrite (updateState_unrecognised _ _ Htag).
Qed.

(** C5, on the code: applying the same ['emergency_start'] twice stores it
    twice, so the store after two applications differs from the store after
    one. *)
Theorem emergency_start_not_idempotent :
  emergencies
    (dispatch_all "Invalid message format:"
       [DObject (emergency_start "inc-1" 5)] initial).1
  = [emergency_start "inc-1" 5]
  ∧ emergencies
      (dispatch_all "Invalid message format:"
         [DObject (emergency_start "inc-1" 5);
          DObject (emergency_start "inc-1" 5)] initial).1
    = [emergency_start "inc-1" 5; emergency_start "inc-1" 5]
  ∧ (dispatch_all "Invalid message format:"
       [DObject (emergency_start "inc-1" 5);
        DObject (emergency_start "inc-1" 5)] initial).1
    ≠ (dispatch_all "Invalid message format:"
         [DObject (emergency_start "inc-1" 5)] initial).1.
Proof.
  split; [by vm_compute|]. split; [by vm_compute|].
  intros H. apply (f_equal (λ s, length (emergencies s))) in H.
  vm_compute in H. discriminate H.
Qed.

(** ** Messages that are dropped *)

Lemma on_message_unchanged JSON_parse msg raw :
  (∀ s, (on_message JSON_parse msg raw s).1 = s) →
  ∀ before after s,
    (deliver (on_message JSON_parse msg) (before ++ raw :: after) s).1
    = (deliver (on_message JSON_parse msg) (before ++ after) s).1.
Proof.
  intros Hsame before after s. rewrite !deliver_app.
  destruct (deliver (on_message JSON_parse msg) before s) as [s1 fx1].
  simpl. specialize (Hsame s1).
  destruct (on_message JSON_parse msg raw s1) as [s2 fx2]. simpl in Hsame.
  subst s2.
  by destruct (deliver (on_message JSON_parse msg) after s1) as [s3 fx3].
Qed.

(** C6, as stated, fails: a message with the unrecognised tag "ping" is not
    classified as a decode error.  [updateState] returns normally and the
    handler leaves no diagnostic, where it does leave one for the malformed
    payload "{". *)
Lemma unknown_type_not_classified :
  updateState (DObject (object_of [("type", VStr "ping")])) initial
  = Returns initial []
  ∧ ws_onmessage parse_sample ping_text initial = (initial, [])
  ∧ ¬ classified_as_decode_error
        (ws_onmessage parse_sample ping_text initial).2
  ∧ classified_as_decode_error (ws_onmessage parse_sample "{" initial).2.
Proof.
  split; [by vm_compute|]. split; [by vm_compute|]. split.
  - intros H. vm_compute in H. by apply Exists_nil in H.
  - vm_compute. by apply Exists_cons_hd.
Qed.

(** C6, amended: a decoded message whose type tag is none of the recognised
    ones is ignored in silence.  [updateState] returns normally with the
    store unchanged and no effect; the handler neither throws nor logs, so
    the message is not classified as an error; and a stream of payloads
    containing such a message leaves the handler with the same store and
    effects as the stream without it. *)
Theorem unknown_type_discarded JSON_parse msg d t :
  type_tag d = Some t → ¬ recognised t →
  (∀ s, updateState d s = Returns s [])
  ∧ (∀ raw before after s,
       JSON_parse raw = Some d →
       deliver (on_message JSON_parse msg) (before ++ raw :: after) s
       = deliver (on_message JSON_parse msg) (before ++ after) s)
  ∧ (∀ raw s,
       JSON_parse raw = Some d →
       on_message JSON_parse msg raw s = (s, [])
       ∧ ¬ classified_as_decode_error (on_message JSON_parse msg raw s).2).
Proof.
  intros Ht Hn.
  assert (Hu : ∀ s, updateState d s = Returns s []).
  { intros s. destruct d as [| |o]; [done..|].
    injection Ht as <-. by apply updateState_unrecognised. }
  split; [done|]. split.
  - intros raw before after s Hp. rewrite !deliver_app.
    destruct (deliver (on_message JSON_parse msg) before s) as [s1 fx1].
    simpl. unfold on_message at 1. rewrite Hp. unfold dispatch. rewrite Hu.
    by destruct (deliver (on_message JSON_parse msg) after s1) as [s3 fx3].
  - intros raw s Hp. unfold on_message. rewrite Hp. unfold dispatch.
    rewrite Hu. split; [done|]. simpl. by intros H%Exists_nil.
Qed.

Lemma unknown_type_discarded_witness :
  (∀ s, updateState (DObject (object_of [("type", VStr "ping")])) s
        = Returns s [])
  ∧ deliver (on_message parse_sample "Invalid message format:")
      ([start_text] ++ ping_text :: [start_text; "{"]) initial
    = deliver (on_message parse_sample "Invalid message format:")
        ([start_text] ++ [start_text; "{"]) initial
  ∧ on_message parse_sample "Invalid message format:" ping_text
      (set_emergencies [emergency_start "inc-1" 5] initial)
    = (set_emergencies [emergency_start "inc-1" 5] initial, [])
  ∧ ¬ classified_as_decode_error
        (on_message parse_sample "Invalid message format:" ping_text
           (set_emergencies [emergency_start "inc-1" 5] initial)).2.
Proof.
  destruct (unknown_type_discarded parse_sample "Invalid message format:"
              (DObject (object_of [("type", VStr "ping")])) (VStr "ping"))
    as (Hsame & Hstream & Hquiet).
  - reflexivity.
  - unfold recognised. intros [H|[H|H]]; discriminate H.
  - split; [exact Hsame|]. split.
    + apply Hstream. vm_compute. reflexivity.
    + apply Hquiet. vm_compute. reflexivity.
Defined.

(** C7: a payload that [JSON.parse] rejects is dropped by both handlers
    with one logged diagnostic, the store unchanged; the handler returns,
    and the payloads after it are handled as if it had not been there. *)
Theorem malformed_payload_dropped JSON_parse raw :
  JSON_parse raw = None →
  ∀ s,
    ws_onmessage JSON_parse raw s
    = (s, [ConsoleError "Invalid message format:"])
    ∧ useWebSocket_onmessage JSON_parse raw s
      = (s, [ConsoleError "WebSocket message error:"])
    ∧ ∀ msg before after,
        (deliver (on_message JSON_parse msg) (before ++ raw :: after) s).1
        = (deliver (on_message JSON_parse msg) (before ++ after) s).1.
Proof.
  intros Hp s. unfold ws_onmessage, useWebSocket_onmessage, on_message.
  rewrite Hp. split; [done|]. split; [done|].
  intros msg before after. apply on_message_unchanged.
  intros s'. unfold on_message. by rewrite Hp.
Qed.

Lemma malformed_payload_dropped_witness :
  ws_onmessage parse_sample "{" (set_emergencies [emergency_start "inc-1" 5] initial)
  = (set_emergencies [emergency_start "inc-1" 5] initial,
     [ConsoleError "Invalid message format:"])
  ∧ useWebSocket_onmessage parse_sample "{"
      (set_emergencies [emergency_start "inc-1" 5] initial)
    = (set_emergencies [emergency_start "inc-1" 5] initial,
       [ConsoleError "WebSocket message error:"])
  ∧ ∀ msg before after,
      (deliver (on_message parse_sample msg) (before ++ "{" :: after)
         (set_emergencies [emergency_start "inc-1" 5] initial)).1
      = (deliver (on_message parse_sample msg) (before ++ after)
           (set_emergencies [emergency_start "inc-1" 5] initial)).1.
Proof.
  apply (malformed_payload_dropped parse_sample "{"). reflexivity.
Defined.

(** A payload that decodes to [null] makes [updateState] throw; the handler
    catches the exception, logs it and keeps the store. *)
Lemma null_payload_dropped JSON_parse msg raw s :
  JSON_parse raw = Some DNull →
  updateState DNull s = Throws TypeError
  ∧ on_message JSON_parse msg raw s = (s, [ConsoleError msg]).
Proof. intros Hp. unfold on_message. by rewrite Hp. Qed.

(** ** Traffic lights *)

Lemma relight_no_match o (ls : list (gmap string value)) :
  Forall (λ l, get l "id" ≠ get o "id") ls → relight o <$> ls = ls.
Proof.
  induction 1 as [|l ls Hl _ IH]; [done|]. rewrite fmap_cons, IH.
  unfold relight. apply strict_eq_false in Hl. by rewrite Hl.
Qed.

(** C9: a ['traffic_light'] event whose identifier matches no stored light
    leaves the store unchanged, so it never creates a light; and since the
    list starts empty and no action adds to it, [trafficLights] is empty in
    every reachable state. *)
Theorem traffic_light_never_creates :
  (∀ o s,
     get o "type" = VStr "traffic_light" →
     Forall (λ l, get l "id" ≠ get o "id") (trafficLights s) →
     updateState (DObject o) s = Returns s [])
  ∧ (∀ s, reachable s → trafficLights s = []).
Proof.
  split; [|apply reachable_trafficLights_empty].
  intros o s Ht Hno. rewrite (updateState_traffic_light _ _ Ht).
  rewrite (relight_no_match _ _ Hno). unfold set_trafficLights.
  by rewrite store_eta.
Qed.

Lemma traffic_light_never_creates_witness :
  updateState (DObject (light_phase 3 "green"))
    (set_trafficLights
       [object_of [("id", VNum 4); ("state", VStr "red")]] initial)
  = Returns
      (set_trafficLights
         [object_of [("id", VNum 4); ("state", VStr "red")]] initial) []
  ∧ trafficLights
      (dispatch_all "Invalid message format:"
         [DObject (light_phase 3 "green"); DObject (upsert 7 0 0 10 1)]
         initial).1 = [].
Proof.
  split.
  - apply (proj1 traffic_light_never_creates); [reflexivity|].
    constructor; [|constructor]. vm_compute. intros H. discriminate H.
  - apply (proj2 traffic_light_never_creates).
    apply reachable_dispatch_all, reachable_initial.
Defined.

(** ** What [updateState] leaves alone *)

(** C10: [updateState] never changes [congestion], [avgSpeed] or
    [isSimulationActive]; a ['vehicle_update'] changes at most [vehicles],
    a ['traffic_light'] at most [trafficLights], an ['emergency_start'] at
    most [emergencies], and any other message nothing at all. *)
Theorem updateState_frame d s s' fx :
  updateState d s = Returns s' fx →
  (congestion s' = congestion s ∧ avgSpeed s' = avgSpeed s
   ∧ isSimulationActive s' = isSimulationActive s)
  ∧ (type_tag d = Some (VStr "vehicle_update") →
     trafficLights s' = trafficLights s ∧ emergencies s' = emergencies s)
  ∧ (type_tag d = Some (VStr "traffic_light") →
     vehicles s' = vehicles s ∧ emergencies s' = emergencies s)
  ∧ (type_tag d = Some (VStr "emergency_start") →
     vehicles s' = vehicles s ∧ trafficLights s' = trafficLights s)
  ∧ (∀ t, type_tag d = Some t → ¬ recognised t → s' = s).
Proof.
  destruct d as [| |o]; [done | intros [= <- <-]; by repeat split |].
  simpl type_tag.
  by_tag o; intros [= <- <-]; rewrite ?Htag; simpl.
  all: split; [done|].
  all: split; [intros Ht; first [discriminate Ht | by split]|].
  all: split; [intros Ht; first [discriminate Ht | by split]|].
  all: split; [intros Ht; first [discriminate Ht | by split]|].
  all: intros t [= <-] Hn; try done.
  all: destruct Hn; unfold recognised; auto.
Qed.

Lemma updateState_frame_witness :
  (congestion
     (set_vehicles [vehicle_of (upsert 7 0 0 10 1)] initial)
   = congestion initial
   ∧ avgSpeed (set_vehicles [vehicle_of (upsert 7 0 0 10 1)] initial)
     = avgSpeed initial
   ∧ isSimulationActive
       (set_vehicles [vehicle_of (upsert 7 0 0 10 1)] initial)
     = isSimulationActive initial)
  ∧ trafficLights (set_vehicles [vehicle_of (upsert 7 0 0 10 1)] initial)
    = trafficLights initial
  ∧ emergencies (set_vehicles [vehicle_of (upsert 7 0 0 10 1)] initial)
    = emergencies initial.
Proof.
  destruct (updateState_frame (DObject (upsert 7 0 0 10 1)) initial
              (set_vehicles [vehicle_of (upsert 7 0 0 10 1)] initial) [])
    as (Hscalars & Hvehicle & _).
  - vm_compute. reflexivity.
  - split; [exact Hscalars|]. apply Hvehicle. reflexivity.
Defined.

(** [toggleSimulation] is the action that changes [isSimulationActive], and
    it changes nothing else. *)
Lemma toggleSimulation_frame s :
  (toggleSimulation s).1
  = set_isSimulationActive (negb (isSimulationActive s)) s.
Proof. done. Qed.

(** * Further properties of the store and its readers *)

(** ** The simulation switch *)

(** X1: toggling the simulation twice gives back the store it started
    from, and the two calls start and stop the traffic sound once each, in
    the order the starting state dictates. *)
Theorem toggleSimulation_twice s :
  (toggleSimulation (toggleSimulation s).1).1 = s
  ∧ (toggleSimulation s).2 ++ (toggleSimulation (toggleSimulation s).1).2
    = if isSimulationActive s then [TrafficStop; TrafficPlay]
      else [TrafficPlay; TrafficStop].
Proof. destruct s as [vs ls es c a []]; done. Qed.

Lemma traffic_playing_app playing fx1 fx2 :
  traffic_playing playing (fx1 ++ fx2)
  = traffic_playing (traffic_playing playing fx1) fx2.
Proof.
  revert playing. induction fx1 as [|e fx1 IH]; intros playing; [done|].
  destruct e; simpl; apply IH.
Qed.

Lemma dispatch_keeps_simulation msg d s playing :
  isSimulationActive (dispatch msg d s).1 = isSimulationActive s
  ∧ traffic_playing playing (dispatch msg d s).2 = playing.
Proof.
  unfold dispatch. destruct d as [| |o]; [done..|].
  by_tag o; done.
Qed.

Lemma step_keeps_sound msg a s :
  traffic_playing (isSimulationActive s) (step msg a s).2
  = isSimulationActive (step msg a s).1.
Proof.
  destruct a as [d|]; simpl.
  - destruct (dispatch_keeps_simulation msg d s (isSimulationActive s))
      as [-> ->]. done.
  - by destruct (isSimulationActive s).
Qed.

(** X2: the traffic sound follows the simulation switch.  If the sound
    plays exactly when the simulation is active, this is still so after any
    sequence of messages and clicks on the simulation button. *)
Theorem traffic_sound_follows_simulation msg acts s playing :
  playing = isSimulationActive s →
  traffic_playing playing (run msg acts s).2
  = isSimulationActive (run msg acts s).1.
Proof.
  intros ->. revert s. induction acts as [|a acts IH]; intros s; [done|].
  simpl. pose proof (step_keeps_sound msg a s) as Hstep.
  destruct (step msg a s) as [s1 fx1]. specialize (IH s1).
  destruct (run msg acts s1) as [s2 fx2]. simpl in *.
  by rewrite traffic_playing_app, Hstep.
Qed.

Lemma traffic_sound_follows_simulation_witness :
  traffic_playing false
    (run "Invalid message format:"
       [ToggleSimulation; Message (DObject (emergency_start "inc-1" 5));
        ToggleSimulation; Message DNull; ToggleSimulation] initial).2
  = isSimulationActive
      (run "Invalid message format:"
         [ToggleSimulation; Message (DObject (emergency_start "inc-1" 5));
          ToggleSimulation; Message DNull; ToggleSimulation] initial).1.
Proof.
  apply (traffic_sound_follows_simulation "Invalid message format:"
           [ToggleSimulation; Message (DObject (emergency_start "inc-1" 5));
            ToggleSimulation; Message DNull; ToggleSimulation] initial false).
  reflexivity.
Defined.

(** X3: a message and a click on the simulation button do not interfere:
    [updateState] gives the same result, with the same effects, on the
    toggled store, and the toggle has the same effect after the update. *)
Theorem updateState_toggleSimulation_commute d s s' fx :
  updateState d s = Returns s' fx →
  updateState d (toggleSimulation s).1 = Returns (toggleSimulation s').1 fx
  ∧ (toggleSimulation s').2 = (toggleSimulation s).2.
Proof.
  destruct d as [| |o]; [done | by intros [= <- <-] |].
  by_tag o; intros [= <- <-]; (split; [|done]).
  - by rewrite (updateState_vehicle_update _ _ Htag).
  - by rewrite (updateState_traffic_light _ _ Htag).
  - by rewrite (updateState_emergency_start _ _ Htag).
  - by rewrite (updateState_unrecognised _ _ Htag).
Qed.

Lemma updateState_toggleSimulation_commute_witness :
  updateState (DObject (upsert 7 0 0 10 1)) (toggleSimulation initial).1
  = Returns
      (toggleSimulation
         (set_vehicles [vehicle_of (upsert 7 0 0 10 1)] initial)).1 []
  ∧ (toggleSimulation
       (set_vehicles [vehicle_of (upsert 7 0 0 10 1)] initial)).2
    = (toggleSimulation initial).2.
Proof.
  apply (updateState_toggleSimulation_commute
           (DObject (upsert 7 0 0 10 1)) initial).
  vm_compute. reflexivity.
Defined.

(** ** What the vehicle list holds *)

Lemma reachable_step msg a s : reachable s → reachable (step msg a s).1.
Proof.
  destruct a as [d|]; simpl; intros Hs.
  - by apply reachable_dispatch.
  - by apply (reachable_toggleSimulation s).
Qed.

Lemma reachable_run msg acts s : reachable s → reachable (run msg acts s).1.
Proof.
  revert s. induction acts as [|a acts IH]; intros s Hs; [done|]. simpl.
  pose proof (reachable_step msg a s Hs) as H1.
  destruct (step msg a s) as [s1 fx1]. specialize (IH s1 H1).
  by destruct (run msg acts s1).
Qed.

(** X4: after any sequence of messages and clicks, no two stored vehicles
    have identifiers that are equal under [===]. *)
Theorem vehicle_ids_distinct msg acts :
  NoDup (veh_id <$> vehicles (run msg acts initial).1).
Proof.
  apply reachable_vehicles_NoDup, reachable_run, reachable_initial.
Qed.

Lemma updateState_vehicle_types d s s' fx :
  updateState d s = Returns s' fx →
  Forall (λ v, veh_type v = "emergency" ∨ veh_type v = "normal") (vehicles s) →
  Forall (λ v, veh_type v = "emergency" ∨ veh_type v = "normal") (vehicles s').
Proof.
  destruct d as [| |o]; [done | by intros [= <- _] |].
  by_tag o; intros [= <- _]; simpl; try done.
  intros Hall. apply Forall_app. split.
  - rewrite Forall_forall in Hall |- *.
    intros v [_ Hv]%list_elem_of_filter. by apply Hall.
  - apply Forall_singleton. unfold vehicle_of. simpl.
    destruct (truthy _); auto.
Qed.

(** X5: every stored vehicle is of type "emergency" or "normal", the two
    cases the [Vehicle] component tells apart, after any sequence of
    messages and clicks. *)
Theorem vehicle_types_two_valued msg acts :
  Forall (λ v, veh_type v = "emergency" ∨ veh_type v = "normal")
         (vehicles (run msg acts initial).1).
Proof.
  assert (Hr : ∀ s, reachable s →
    Forall (λ v, veh_type v = "emergency" ∨ veh_type v = "normal")
           (vehicles s)).
  { induction 1 as [|d s s' fx _ IH Hu|s _ IH]; [constructor| |done].
    by eapply updateState_vehicle_types. }
  apply Hr, reachable_run, reachable_initial.
Qed.

Lemma filter_ne_absent k (vs : list vehicle) :
  k ∉ veh_id <$> vs →
  filter (λ v, strict_ne (veh_id v) k = true) vs = vs.
Proof.
  induction vs as [|v vs IH]; [done|]. rewrite fmap_cons, not_elem_of_cons.
  intros [Hv Hvs]. rewrite filter_cons_True by (by apply strict_ne_true).
  by rewrite IH.
Qed.

Lemma filter_ne_present k (vs : list vehicle) :
  NoDup (veh_id <$> vs) → k ∈ veh_id <$> vs →
  S (length (filter (λ v, strict_ne (veh_id v) k = true) vs)) = length vs.
Proof.
  induction vs as [|v vs IH]; [by intros _ ?%elem_of_nil|].
  rewrite fmap_cons, NoDup_cons. intros [Hv Hnd] Hin.
  destruct (decide (veh_id v = k)) as [<-|Hne].
  - rewrite filter_cons_False by (rewrite strict_ne_true; naive_solver).
    by rewrite filter_ne_absent.
  - rewrite filter_cons_True by (by apply strict_ne_true). simpl.
    apply elem_of_cons in Hin as [?|Hin]; [congruence|]. by rewrite IH.
Qed.

(** X6: a vehicle upsert makes the list one longer when its identifier is
    new and keeps its length when the identifier is already stored,
    provided the stored identifiers are distinct. *)
Theorem vehicle_update_count o s s' fx :
  get o "type" = VStr "vehicle_update" →
  NoDup (veh_id <$> vehicles s) →
  updateState (DObject o) s = Returns s' fx →
  length (vehicles s')
  = if bool_decide (get o "id" ∈ veh_id <$> vehicles s)
    then length (vehicles s) else S (length (vehicles s)).
Proof.
  intros Ht Hnd. rewrite (updateState_vehicle_update _ _ Ht).
  intros [= <- _]. simpl. rewrite length_app. simpl.
  case_bool_decide as Hin.
  - rewrite <- (filter_ne_present (get o "id") (vehicles s)) by done. lia.
  - rewrite filter_ne_absent by done. lia.
Qed.

Lemma vehicle_update_count_witness :
  length (vehicles
            (set_vehicles
               [vehicle_of (upsert 8 5 5 30 2); vehicle_of (upsert 7 1 1 12 3)]
               initial))
  = if bool_decide
         (get (upsert 7 1 1 12 3) "id"
          ∈ veh_id <$> vehicles
              (set_vehicles
                 [vehicle_of (upsert 7 0 0 10 1);
                  vehicle_of (upsert 8 5 5 30 2)] initial))
    then length (vehicles
                   (set_vehicles
                      [vehicle_of (upsert 7 0 0 10 1);
                       vehicle_of (upsert 8 5 5 30 2)] initial))
    else S (length (vehicles
                      (set_vehicles
                         [vehicle_of (upsert 7 0 0 10 1);
                          vehicle_of (upsert 8 5 5 30 2)] initial))).
Proof.
  apply (vehicle_update_count (upsert 7 1 1 12 3)
           (set_vehicles
              [vehicle_of (upsert 7 0 0 10 1); vehicle_of (upsert 8 5 5 30 2)]
              initial) _ []).
  - reflexivity.
  - vm_compute. apply NoDup_cons. split.
    + intros Hin. apply list_elem_of_singleton in Hin. discriminate Hin.
    + apply NoDup_singleton.
  - vm_compute. reflexivity.
Defined.

(** X7: a vehicle upsert touches one identifier only: afterwards the stored
    identifiers are the old ones and its own, and what is stored under any
    other identifier is what was stored before. *)
Theorem vehicle_update_touches_one o s s' fx k :
  get o "type" = VStr "vehicle_update" →
  updateState (DObject o) s = Returns s' fx →
  (k ∈ veh_id <$> vehicles s' ↔ k ∈ veh_id <$> vehicles s ∨ k = get o "id")
  ∧ (k ≠ get o "id" → stored_vehicles k s' = stored_vehicles k s).
Proof.
  intros Ht. rewrite (updateState_vehicle_update _ _ Ht). intros [= <- _].
  simpl. split.
  - rewrite fmap_app, elem_of_app. simpl. rewrite list_elem_of_singleton.
    split.
    + intros [Hin | ->]; [left|by right].
      apply list_elem_of_fmap in Hin as (w & -> & Hw).
      apply list_elem_of_filter in Hw as [_ Hw].
      apply list_elem_of_fmap. by exists w.
    + intros [Hin | ->]; [|by right].
      destruct (decide (k = get o "id")) as [->|Hne]; [by right|left].
      apply list_elem_of_fmap in Hin as (w & -> & Hw).
      apply list_elem_of_fmap. exists w. split; [done|].
      apply list_elem_of_filter. split; [|done]. by apply strict_ne_true.
  - intros Hne. unfold stored_vehicles. simpl.
    rewrite filter_app, stored_other_filter by done.
    rewrite filter_cons_False by (simpl; congruence). by rewrite app_nil_r.
Qed.

Lemma vehicle_update_touches_one_witness :
  (VNum 8 ∈ veh_id <$> vehicles
       (set_vehicles
          [vehicle_of (upsert 8 5 5 30 2); vehicle_of (upsert 7 1 1 12 3)]
          initial)
   ↔ VNum 8 ∈ veh_id <$> vehicles
         (set_vehicles
            [vehicle_of (upsert 7 0 0 10 1); vehicle_of (upsert 8 5 5 30 2)]
            initial)
     ∨ VNum 8 = get (upsert 7 1 1 12 3) "id")
  ∧ (VNum 8 ≠ get (upsert 7 1 1 12 3) "id" →
     stored_vehicles (VNum 8)
       (set_vehicles
          [vehicle_of (upsert 8 5 5 30 2); vehicle_of (upsert 7 1 1 12 3)]
          initial)
     = stored_vehicles (VNum 8)
         (set_vehicles
            [vehicle_of (upsert 7 0 0 10 1); vehicle_of (upsert 8 5 5 30 2)]
            initial)).
Proof.
  apply (vehicle_update_touches_one (upsert 7 1 1 12 3)
           (set_vehicles
              [vehicle_of (upsert 7 0 0 10 1); vehicle_of (upsert 8 5 5 30 2)]
              initial) _ []).
  - reflexivity.
  - vm_compute. reflexivity.
Defined.

(** ** The emergency log and the siren *)

Lemma dispatch_started msg d s :
  emergencies (dispatch msg d s).1 = emergencies s ++ option_list (started d)
  ∧ filter (λ e, e = SirenPlay) (dispatch msg d s).2
    = (λ _, SirenPlay) <$> option_list (started d).
Proof.
  unfold dispatch. destruct d as [| |o]; simpl; [by rewrite app_nil_r..|].
  destruct (strict_eq (get o "type") (VStr "vehicle_update")) eqn:E1.
  { apply strict_eq_true in E1. rewrite E1. simpl. by rewrite app_nil_r. }
  destruct (strict_eq (get o "type") (VStr "traffic_light")) eqn:E2.
  { apply strict_eq_true in E2. rewrite E2. simpl. by rewrite app_nil_r. }
  destruct (strict_eq (get o "type") (VStr "emergency_start")) eqn:E3; simpl.
  - done.
  - by rewrite app_nil_r.
Qed.

(** X8: the emergency list is the log of the starts received: after any
    sequence of messages it is the old list followed by the objects of the
    ['emergency_start'] messages, in the order they came, and the siren has
    been started once for each of them. *)
Theorem emergencies_log msg ds s :
  emergencies (dispatch_all msg ds s).1 = emergencies s ++ omap started ds
  ∧ length (filter (λ e, e = SirenPlay) (dispatch_all msg ds s).2)
    = length (omap started ds).
Proof.
  revert s. induction ds as [|d ds IH]; intros s.
  { simpl. by rewrite app_nil_r. }
  simpl. destruct (dispatch_started msg d s) as [He Hf].
  destruct (dispatch msg d s) as [s1 fx1]. destruct (IH s1) as [IHe IHf].
  destruct (dispatch_all msg ds s1) as [s2 fx2]. simpl in *.
  rewrite IHe, He, filter_app, length_app, Hf, IHf.
  destruct (started d); simpl; [|by rewrite app_nil_r].
  split; [|done]. by rewrite <- app_assoc.
Qed.

(** ** Streams of payloads *)

Lemma deliver_cons_store h raw raws s :
  (deliver h (raw :: raws) s).1 = (deliver h raws (h raw s).1).1.
Proof.
  simpl. destruct (h raw s) as [s1 fx1]. simpl.
  by destruct (deliver h raws s1).
Qed.

Lemma deliver_cons_effects h raw raws s :
  (deliver h (raw :: raws) s).2
  = (h raw s).2 ++ (deliver h raws (h raw s).1).2.
Proof.
  simpl. destruct (h raw s) as [s1 fx1]. simpl.
  by destruct (deliver h raws s1).
Qed.

Lemma dispatch_all_cons_store msg d ds s :
  (dispatch_all msg (d :: ds) s).1
  = (dispatch_all msg ds (dispatch msg d s).1).1.
Proof.
  simpl. destruct (dispatch msg d s) as [s1 fx1]. simpl.
  by destruct (dispatch_all msg ds s1).
Qed.

(** X9: over a stream of payloads, the store a handler ends with is the one
    [updateState] builds from the payloads that decode, in order; the
    malformed ones leave no trace in it. *)
Theorem deliver_dispatches_decoded JSON_parse msg raws s :
  (deliver (on_message JSON_parse msg) raws s).1
  = (dispatch_all msg (omap JSON_parse raws) s).1.
Proof.
  revert s. induction raws as [|raw raws IH]; intros s; [done|].
  rewrite deliver_cons_store, IH. unfold on_message. simpl omap.
  destruct (JSON_parse raw) as [d|]; [|done].
  by rewrite dispatch_all_cons_store.
Qed.

Lemma on_message_diagnostic JSON_parse msg raw s :
  filter (λ e, is_console_error e = true) (on_message JSON_parse msg raw s).2
  = if rejected JSON_parse raw then [ConsoleError msg] else [].
Proof.
  unfold on_message, rejected. destruct (JSON_parse raw) as [d|]; [|done].
  unfold dispatch. destruct d as [| |o]; [done..|]. by_tag o; done.
Qed.

(** X10: a handler logs exactly one diagnostic, with its own text, for each
    payload that is malformed or decodes to [null], and none for any other
    payload. *)
Theorem one_diagnostic_per_rejected JSON_parse msg raws s :
  filter (λ e, is_console_error e = true)
         (deliver (on_message JSON_parse msg) raws s).2
  = replicate (length (filter (λ raw, rejected JSON_parse raw = true) raws))
              (ConsoleError msg).
Proof.
  revert s. induction raws as [|raw raws IH]; intros s; [done|].
  rewrite deliver_cons_effects, filter_app, IH, on_message_diagnostic.
  destruct (rejected JSON_parse raw) eqn:E.
  - rewrite filter_cons_True by done. reflexivity.
  - rewrite filter_cons_False by (rewrite E; discriminate). reflexivity.
Qed.

(** X11: a payload without nested objects or arrays that is delivered a
    second time changes nothing more in the store, unless it is an
    ['emergency_start']. *)
Theorem redelivery_harmless JSON_parse msg raw s :
  from_option flat true (JSON_parse raw) = true →
  JSON_parse raw ≫= started = None →
  (deliver (on_message JSON_parse msg) [raw; raw] s).1
  = (deliver (on_message JSON_parse msg) [raw] s).1.
Proof.
  intros _ Hno. simpl. unfold on_message.
  destruct (JSON_parse raw) as [d|]; [|done]. simpl in Hno.
  unfold dispatch. destruct (updateState d s) as [s1 fx1|e] eqn:E.
  - rewrite (updateState_twice d s s1 fx1); [done| |done].
    destruct d as [| |o]; [done..|]. simpl in *.
    intros [= Ht]. by rewrite Ht in Hno.
  - by rewrite E.
Qed.

Lemma redelivery_harmless_witness :
  (deliver (on_message parse_feed "Invalid message format:")
     [vehicle_text; vehicle_text]
     (set_vehicles [vehicle_of (upsert 7 0 0 10 1)] initial)).1
  = (deliver (on_message parse_feed "Invalid message format:")
       [vehicle_text]
       (set_vehicles [vehicle_of (upsert 7 0 0 10 1)] initial)).1.
Proof.
  apply (redelivery_harmless parse_feed "Invalid message format:" vehicle_text).
  - vm_compute. reflexivity.
  - vm_compute. reflexivity.
Defined.

(** ** Phase changes *)

Lemma get_relight_other o light k :
  k ≠ "state" → get (relight o light) k = get light k.
Proof.
  intros Hk. unfold relight. destruct (strict_eq _ _); [|done].
  unfold get. by rewrite lookup_insert_ne.
Qed.

Lemma get_relight_state o light :
  get (relight o light) "id" = get o "id" →
  get (relight o light) "state" = get o "state".
Proof.
  rewrite get_relight_other by done. intros Hid. unfold relight.
  apply strict_eq_true in Hid. rewrite Hid. unfold get.
  by rewrite lookup_insert_eq.
Qed.

(** X12: a ['traffic_light'] event on a store that holds lights keeps their
    number and order and every property other than [state]; afterwards each
    light with the event's identifier shows the event's state, and each
    other light is the object it was. *)
Theorem traffic_light_sets_phase o s s' fx :
  get o "type" = VStr "traffic_light" →
  updateState (DObject o) s = Returns s' fx →
  length (trafficLights s') = length (trafficLights s)
  ∧ (∀ k, k ≠ "state" →
          (λ l, get l k) <$> trafficLights s'
          = (λ l, get l k) <$> trafficLights s)
  ∧ Forall (λ l, get l "id" = get o "id" → get l "state" = get o "state")
           (trafficLights s')
  ∧ (∀ i l, trafficLights s !! i = Some l →
            get l "id" ≠ get o "id" → trafficLights s' !! i = Some l).
Proof.
  intros Ht. rewrite (updateState_traffic_light _ _ Ht). intros [= <- _].
  simpl. split; [apply length_fmap|]. split; [|split].
  - intros k Hk. rewrite <- list_fmap_compose. apply list_fmap_ext.
    intros i l _. simpl. by apply get_relight_other.
  - apply Forall_fmap, Forall_forall. intros l _. simpl.
    apply get_relight_state.
  - intros i l Hl Hne. rewrite list_lookup_fmap, Hl. simpl. f_equal.
    unfold relight. apply strict_eq_false in Hne. by rewrite Hne.
Qed.

Lemma traffic_light_sets_phase_witness :
  length (trafficLights
            (set_trafficLights
               [object_of [("id", VNum 3); ("state", VStr "green")];
                object_of [("id", VNum 4); ("state", VStr "red")]] initial))
  = length (trafficLights
              (set_trafficLights
                 [object_of [("id", VNum 3); ("state", VStr "red")];
                  object_of [("id", VNum 4); ("state", VStr "red")]] initial))
  ∧ get (object_of [("id", VNum 3); ("state", VStr "green")]) "state"
    = get (light_phase 3 "green") "state"
  ∧ trafficLights
      (set_trafficLights
         [object_of [("id", VNum 3); ("state", VStr "green")];
          object_of [("id", VNum 4); ("state", VStr "red")]] initial)
    !! 1%nat
    = Some (object_of [("id", VNum 4); ("state", VStr "red")]).
Proof.
  destruct (traffic_light_sets_phase (light_phase 3 "green")
              (set_trafficLights
                 [object_of [("id", VNum 3); ("state", VStr "red")];
                  object_of [("id", VNum 4); ("state", VStr "red")]] initial)
              (set_trafficLights
                 [object_of [("id", VNum 3); ("state", VStr "green")];
                  object_of [("id", VNum 4); ("state", VStr "red")]] initial)
              []) as (Hlen & _ & Hphase & Hother).
  - reflexivity.
  - vm_compute. reflexivity.
  - split; [exact Hlen|]. split.
    + apply Forall_cons in Hphase as [Hfirst _]. apply Hfirst.
      vm_compute. reflexivity.
    + apply Hother; [reflexivity|]. vm_compute. intros H. discriminate H.
Defined.

(** ** The lamps of a traffic light *)

Lemma lamp_unlit state color :
  VStr color ≠ state → TrafficLight.lamp state color = ("#444444", "#000000").
Proof.
  intros Hne. unfold TrafficLight.lamp. apply strict_eq_false in Hne.
  by rewrite Hne.
Qed.

(** X13: whatever the state of a light, at most one of its three lamps is
    lit, and one is lit exactly when the state is "red", "yellow" or
    "green". *)
Theorem at_most_one_lamp_lit state :
  (length (filter (λ l, TrafficLight.lit l = true) (TrafficLight.lamps state))
   ≤ 1)%nat
  ∧ (length (filter (λ l, TrafficLight.lit l = true)
                    (TrafficLight.lamps state)) = 1%nat
     ↔ state = VStr "red" ∨ state = VStr "yellow" ∨ state = VStr "green").
Proof.
  unfold TrafficLight.lamps.
  destruct (decide (state = VStr "red")) as [->|Hr].
  { split; [vm_compute; lia|]. split; [auto|]. intros _. by vm_compute. }
  destruct (decide (state = VStr "yellow")) as [->|Hy].
  { split; [vm_compute; lia|]. split; [auto|]. intros _. by vm_compute. }
  destruct (decide (state = VStr "green")) as [->|Hg].
  { split; [vm_compute; lia|]. split; [auto|]. intros _. by vm_compute. }
  rewrite !fmap_cons, !lamp_unlit by done. split; [vm_compute; lia|].
  split; [intros H; vm_compute in H; discriminate H|].
  intros [?|[?|?]]; done.
Qed.

(** ** The two versions of the store *)

Lemma vehicle_of_filter k (vs : list (gmap string value)) :
  vehicle_of <$> filter (λ v, strict_ne (get v "id") k = true) vs
  = filter (λ v, strict_ne (veh_id v) k = true) (vehicle_of <$> vs).
Proof.
  induction vs as [|v vs IH]; [done|]. rewrite fmap_cons.
  destruct (decide (strict_ne (get v "id") k = true)) as [Hv|Hv].
  - rewrite (filter_cons_True _ v) by done.
    rewrite (filter_cons_True _ (vehicle_of v)) by done.
    by rewrite fmap_cons, IH.
  - rewrite (filter_cons_False _ v) by done.
    by rewrite (filter_cons_False _ (vehicle_of v)).
Qed.

(** X15: on every payload but an emergency one (tag "emergency" for the
    earlier store, "emergency_start" for the later), the two versions of the
    store move together: when [onMessage] of [websocket.js] returns,
    [updateState] returns too, without effects, and the vehicles, lights,
    congestion and average speed of the two stores still correspond, while
    neither emergency list has changed. *)
Theorem updateState_follows_onMessage
    JSON_parse throws raw d old old' fx s :
  JSON_parse raw = Some d →
  same_traffic old s →
  type_tag d ≠ Some (VStr "emergency") →
  type_tag d ≠ Some (VStr "emergency_start") →
  websocket_js.onMessage JSON_parse throws raw old
  = websocket_js.Returns old' fx →
  ∃ s', updateState d s = Returns s' []
        ∧ same_traffic old' s'
        ∧ emergencies s' = emergencies s
        ∧ websocket_js.emergencies old' = websocket_js.emergencies old
        ∧ fx = [].
Proof.
  intros Hp (Hv & Hl & Hc & Ha) Hn1 Hn2. unfold websocket_js.onMessage.
  rewrite Hp. destruct d as [| |o]; [done| |].
  { intros [= <- <-]. exists s. by repeat split. }
  simpl in Hn1, Hn2. simpl.
  destruct (strict_eq (get o "type") (VStr "vehicle_update")) eqn:E1.
  { intros [= <- <-]. eexists. split; [done|]. repeat split; simpl; try done.
    by rewrite fmap_app, vehicle_of_filter, Hv. }
  destruct (strict_eq (get o "type") (VStr "traffic_light")) eqn:E2.
  { intros [= <- <-]. eexists. split; [done|]. repeat split; simpl; try done.
    by rewrite Hl. }
  destruct (strict_eq (get o "type") (VStr "emergency")) eqn:E3.
  { apply strict_eq_true in E3. congruence. }
  destruct (strict_eq (get o "type") (VStr "emergency_start")) eqn:E4.
  { apply strict_eq_true in E4. congruence. }
  intros [= <- <-]. exists s. by repeat split.
Qed.

Lemma updateState_follows_onMessage_witness :
  ∃ s', updateState (DObject vehicle_message) initial = Returns s' []
        ∧ same_traffic
            {| websocket_js.vehicles := [vehicle_message];
               websocket_js.trafficLights := [];
               websocket_js.emergencies := [];
               websocket_js.congestion := 0;
               websocket_js.avgSpeed := 45 |} s'
        ∧ emergencies s' = emergencies initial
        ∧ @nil (gmap string value)
          = websocket_js.emergencies websocket_js.initial
        ∧ @nil websocket_js.effect = [].
Proof.
  apply (updateState_follows_onMessage parse_feed true vehicle_text
           (DObject vehicle_message) websocket_js.initial
           {| websocket_js.vehicles := [vehicle_message];
              websocket_js.trafficLights := [];
              websocket_js.emergencies := [];
              websocket_js.congestion := 0;
              websocket_js.avgSpeed := 45 |} [] initial).
  - vm_compute. reflexivity.
  - by repeat split.
  - vm_compute. intros H. discriminate H.
  - vm_compute. intros H. discriminate H.
  - vm_compute. reflexivity.
Defined.

(** ** The dashboard figures *)

Lemma step_keeps_figures msg a s :
  congestion (step msg a s).1 = congestion s
  ∧ avgSpeed (step msg a s).1 = avgSpeed s.
Proof.
  destruct a as [d|]; simpl; [|done]. unfold dispatch.
  destruct d as [| |o]; [done..|]. by_tag o; done.
Qed.

(** X16: no message and no click ever changes the congestion and average
    speed the control panel displays: after any sequence of them they are
    still the initial 0 and 45. *)
Theorem dashboard_figures_constant msg acts :
  congestion (run msg acts initial).1 = 0
  ∧ avgSpeed (run msg acts initial).1 = 45.
Proof.
  assert (Hrun : ∀ s, congestion (run msg acts s).1 = congestion s
                      ∧ avgSpeed (run msg acts s).1 = avgSpeed s).
  { induction acts as [|a acts IH]; intros s; [done|]. simpl.
    destruct (step_keeps_figures msg a s) as [Hc Ha].
    destruct (step msg a s) as [s1 fx1]. destruct (IH s1) as [IHc IHa].
    destruct (run msg acts s1) as [s2 fx2]. simpl in *. split; congruence. }
  apply (Hrun initial).
Qed.
